(** * MoleQueue main window: request routing and start-up arbitration

    A shallow embedding of the slots of [MoleQueue::MainWindow]
    (molequeue/mainwindow.cpp): the three request slots wired up by
    [newConnection] and the server error handler.

    The slots have no state of their own; everything they do is a call on
    an object owned by somebody else (the sending [ServerConnection], the
    [QueueManager], a [Queue], the [JobManager], the application object, a
    dialog).  A slot is therefore embedded as a computation that appends
    the calls it makes, in program order, to a trace; the trace is then
    replayed on a record of the observable state of those objects. *)

From Stdlib Require Import ZArith List Ascii String.
From stdpp Require Import base gmap strings list fin_maps.
Import ListNotations.
Open Scope string_scope.
Open Scope list_scope.

(** ** Data *)

(** [MoleQueue::IdType], an unsigned integer. *)
Definition IdType := N.

(** A [ServerConnection*] is identified by a number; two pointers are the
    same connection exactly when the numbers are equal. *)
Definition ConnId := nat.

(** What [QObject::sender()] can hand to a slot: a server connection, some
    other object, or nothing at all (a direct call). *)
Inductive QObject :=
| ServerConnectionObject (c : ConnId)
| OtherObject
| NoObject.

(** [qobject_cast<ServerConnection*>]: the connection, or NULL. *)
Definition qobject_cast (o : QObject) : option ConnId :=
  match o with
  | ServerConnectionObject c => Some c
  | OtherObject | NoObject => None
  end.

(** The part of [Job] the slots read: [moleQueueId()], [queue()] and
    [hash()] (printed only). *)
Record Job := mkJob {
  moleQueueId : IdType;
  queue : string;
  hash : string
}.

(** [Queue::submitJob] answers with a boolean; what the queue does with
    the job is its own business and is recorded as a call in the trace. *)
Record Queue := mkQueue {
  submitJob : Job -> bool
}.

(** Modelled from the spec: [QueueManager] (queuemanager.h is not part of
    this file).  Queues are identified by a unique name and the manager
    resolves a name to a queue or to nothing, so it is a finite map from
    names to queues. *)
Abbreviation QueueManager := (gmap string Queue).

(** Modelled from the spec: [QueueManager::lookupQueue], the lookup
    [lookup(queueName) -> Queue | absent]. *)
Definition lookupQueue (qm : QueueManager) (name : string) : option Queue :=
  qm !! name.

(** Modelled from the spec: [QueueManager::toQueueList], the operation
    [allNames()] returning the sequence of all queue names. *)
Definition toQueueList (qm : QueueManager) : list string :=
  (map_to_list qm).*1.

(** Modelled from the spec: [JobManager] (jobmanager.h is not part of this
    file), resolving an issued identifier to its job record. *)
Abbreviation JobManager := (gmap IdType Job).

(** Modelled from the spec: [JobManager::lookupMoleQueueId], the lookup
    [lookupByIdentifier(id) -> Job | absent]; NULL is [None]. *)
Definition lookupMoleQueueId (jm : JobManager) (id : IdType) : option Job :=
  jm !! id.

(** [MoleQueue::JobSubmissionErrorCode].  Only [InvalidQueue] is named in
    this file; the other enumerators are kept as numbered tags. *)
Inductive JobSubmissionErrorCode :=
| InvalidQueue
| OtherErrorCode (tag : nat).

(** The four [ServerConnection::send...] calls.  The cancellation response
    takes a [const Job*], which may be NULL. *)
Inductive Response :=
| QueueListResponse (names : list string)
| SuccessfulSubmissionResponse (req : Job)
| FailedSubmissionResponse (req : Job) (ec : JobSubmissionErrorCode)
                           (msg : string)
| SuccessfulCancellationResponse (req : option Job).

(** Items streamed into [qDebug()] / [qWarning()]. *)
Inductive LogItem :=
| LogText (s : string)
| LogBool (b : bool)
| LogId (n : IdType).

(** [QAbstractSocket::SocketError] by its integer value. *)
Definition SocketError := Z.
Definition AddressInUseError : SocketError := 8%Z.

(** Every call a slot makes on another object. *)
Inductive Effect :=
| QWarning (items : list LogItem)
| QDebug (items : list LogItem)
| QueueManagerToQueueList
| QueueManagerLookupQueue (name : string)
| JobManagerLookupMoleQueueId (id : IdType)
| ConnSend (conn : ConnId) (r : Response)
| QueueSubmitJob (qname : string) (req : Job)
| InputDialogGetItem (title label : string) (items : list string)
                     (current : nat) (editable : bool)
| WindowHide
| AppExit (code : Z)
| ServerForceStart
| MessageBoxWarning (title text : string).

(** ** Strings *)

(** The line feed of ["...\n"]. *)
Definition LF : string := String (ascii_of_nat 10) EmptyString.

(** [tr]: no translator is installed by this file, so the source text is
    returned. *)
Definition tr (s : string) : string := s.

(** [QString::arg] on a format whose only place marker is [%1] (not
    followed by a digit), as in the two formats of this file: every
    occurrence of the marker is replaced by the argument, and the inserted
    text is not scanned again. *)
Fixpoint arg (fmt a : string) : string :=
  match fmt with
  | EmptyString => EmptyString
  | String c rest =>
      match c, rest with
      | "%"%char, String "1"%char rest' => a +:+ arg rest' a
      | _, _ => String c (arg rest a)
      end
  end.

(** [QString::contains]. *)
Definition contains (s sub : string) : Prop :=
  exists pre post, s = pre +:+ sub +:+ post.

(** [QStringList::indexOf]: position of the first equal element, or -1. *)
Fixpoint indexOfFrom (l : list string) (s : string) (from : Z) : Z :=
  match l with
  | [] => (-1)%Z
  | x :: l' => if String.eqb x s then from
               else indexOfFrom l' s (from + 1)%Z
  end.

Definition indexOf (l : list string) (s : string) : Z := indexOfFrom l s 0%Z.

(** ** Slots as trace-producing computations *)

(** A computation threads the trace written so far (oldest call first) and
    returns a value. *)
Definition Cmd (A : Type) : Type := list Effect -> A * list Effect.

#[export] Instance cmd_ret : MRet Cmd := fun _ a t => (a, t).

#[export] Instance cmd_bind : MBind Cmd :=
  fun _ _ k m t => let (a, t') := m t in k a t'.

Definition call (e : Effect) : Cmd unit := fun t => (tt, t ++ [e]).

(** The calls made by a computation started on an empty trace. *)
Definition trace_of {A} (m : Cmd A) : list Effect := snd (m []).

(** *** The external calls *)

Definition qWarning (items : list LogItem) : Cmd unit := call (QWarning items).
Definition qDebug (items : list LogItem) : Cmd unit := call (QDebug items).

(** [m_server->queueManager()->toQueueList()] *)
Definition queueManager_toQueueList (qm : QueueManager) : Cmd (list string) :=
  call QueueManagerToQueueList ;; mret (toQueueList qm).

(** [m_server->queueManager()->lookupQueue(name)] *)
Definition queueManager_lookupQueue (qm : QueueManager) (name : string)
  : Cmd (option Queue) :=
  call (QueueManagerLookupQueue name) ;; mret (lookupQueue qm name).

(** [m_server->jobManager()->lookupMoleQueueId(id)] *)
Definition jobManager_lookupMoleQueueId (jm : JobManager) (id : IdType)
  : Cmd (option Job) :=
  call (JobManagerLookupMoleQueueId id) ;; mret (lookupMoleQueueId jm id).

Definition sendQueueList (conn : ConnId) (l : list string) : Cmd unit :=
  call (ConnSend conn (QueueListResponse l)).

Definition sendSuccessfulSubmissionResponse (conn : ConnId) (req : Job)
  : Cmd unit :=
  call (ConnSend conn (SuccessfulSubmissionResponse req)).

Definition sendFailedSubmissionResponse (conn : ConnId) (req : Job)
    (ec : JobSubmissionErrorCode) (msg : string) : Cmd unit :=
  call (ConnSend conn (FailedSubmissionResponse req ec msg)).

Definition sendSuccessfulCancellationResponse (conn : ConnId)
    (req : option Job) : Cmd unit :=
  call (ConnSend conn (SuccessfulCancellationResponse req)).

(** [queue->submitJob(req)] on the queue registered under [qname]. *)
Definition queue_submitJob (qname : string) (q : Queue) (req : Job)
  : Cmd bool :=
  call (QueueSubmitJob qname req) ;; mret (submitJob q req).

(** What the user does with the modal item dialog: accept with the given
    row of the combo box selected, or dismiss it. *)
Inductive DialogAction :=
| DialogAccept (row : nat)
| DialogReject.

(** [QInputDialog::getItem]: the text of the selected row and [ok = true]
    when accepted, the text of the initial row and [ok = false] when
    dismissed. *)
Definition getItem (title label : string) (items : list string)
    (current : nat) (editable : bool) (user : DialogAction)
  : Cmd (string * bool) :=
  call (InputDialogGetItem title label items current editable) ;;
  mret (match user with
       | DialogAccept row => (nth row items EmptyString, true)
       | DialogReject => (nth current items EmptyString, false)
       end).

Definition FUNC_INFO_queueListRequested : string :=
  "void MoleQueue::MainWindow::queueListRequested()".
Definition FUNC_INFO_jobSubmissionRequested : string :=
  "void MoleQueue::MainWindow::jobSubmissionRequested(const MoleQueue::Job*)".
Definition FUNC_INFO_jobCancellationRequested : string :=
  "void MoleQueue::MainWindow::jobCancellationRequested(MoleQueue::IdType)".

Definition notAServerConnection (funcInfo : string) : Cmd unit :=
  qWarning [LogText funcInfo;
            LogText "called with a sender which is not a ServerConnection."].

(** *** MainWindow::queueListRequested *)
Definition queueListRequested (sender : QObject) (qm : QueueManager)
  : Cmd unit :=
  match qobject_cast sender with
  | None => notAServerConnection FUNC_INFO_queueListRequested
  | Some conn =>
      l ← queueManager_toQueueList qm ;
      sendQueueList conn l
  end.

(** *** MainWindow::jobSubmissionRequested *)
Definition jobSubmissionRequested (sender : QObject) (qm : QueueManager)
    (req : Job) : Cmd unit :=
  match qobject_cast sender with
  | None => notAServerConnection FUNC_INFO_jobSubmissionRequested
  | Some conn =>
      qDebug [LogText ("Job submission requested:" +:+ LF);
              LogText (hash req)] ;;
      queuePtr ← queueManager_lookupQueue qm (queue req) ;
      match queuePtr with
      | None =>
          sendFailedSubmissionResponse conn req InvalidQueue
            (arg (tr "Unknown queue: %1") (queue req))
      | Some q =>
          sendSuccessfulSubmissionResponse conn req ;;
          ok ← queue_submitJob (queue req) q req ;
          qDebug [LogText "Submission ok?"; LogBool ok]
      end
  end.

(** *** MainWindow::jobCancellationRequested *)
Definition jobCancellationRequested (sender : QObject) (jm : JobManager)
    (moleQueueId : IdType) : Cmd unit :=
  match qobject_cast sender with
  | None => notAServerConnection FUNC_INFO_jobCancellationRequested
  | Some conn =>
      qDebug [LogText "Job cancellation requested: MoleQueueId:";
              LogId moleQueueId] ;;
      req ← jobManager_lookupMoleQueueId jm moleQueueId ;
      sendSuccessfulCancellationResponse conn req
  end.

(** *** MainWindow::handleServerError *)
Definition choices : list string :=
  [tr "There is no other server running. Continue running.";
   tr "Oops -- there is an existing server. Terminate the new server."].

Definition handleServerError (err : SocketError) (str : string)
    (user : DialogAction) : Cmd unit :=
  if (err =? AddressInUseError)%Z then
    r ← getItem (tr "Replace existing MoleQueue server?")
           (tr "A MoleQueue server appears to already be running. How would you like to handle this?")
           choices 0 false user ;
    let (choice, ok) := (r : string * bool) in
    let index := indexOf choices choice in
    if negb ok || (index =? 1)%Z then
      call WindowHide ;; call (AppExit 0)
    else
      call ServerForceStart
  else
    call (MessageBoxWarning (tr "Server error")
            (arg (tr "A server error has occurred: '%1'") str)).

(** ** Signals and their dispatch *)

(** The three signals of a [ServerConnection] that
    [MainWindow::newConnection] connects to the slots of the same name. *)
Inductive Signal :=
| queueListRequestedSignal
| jobSubmissionRequestedSignal (req : Job)
| jobCancellationRequestedSignal (moleQueueId : IdType).

(** One delivery of a signal: the emitting object, which the slot sees as
    [sender()], and the two directories as they are at that moment. *)
Record Dispatch := mkDispatch {
  d_sender : QObject;
  d_queues : QueueManager;
  d_jobs : JobManager;
  d_signal : Signal
}.

(** The slot run for a signal, after the connections made in
    [MainWindow::newConnection]. *)
Definition runSlot (d : Dispatch) : Cmd unit :=
  match d_signal d with
  | queueListRequestedSignal =>
      queueListRequested (d_sender d) (d_queues d)
  | jobSubmissionRequestedSignal req =>
      jobSubmissionRequested (d_sender d) (d_queues d) req
  | jobCancellationRequestedSignal id =>
      jobCancellationRequested (d_sender d) (d_jobs d) id
  end.

(** Signals are delivered one at a time, each slot running to completion
    before the next one starts. *)
Fixpoint eventLoop (ds : list Dispatch) : Cmd unit :=
  match ds with
  | [] => mret tt
  | d :: ds' => runSlot d ;; eventLoop ds'
  end.

(** ** Observations on a trace *)

Definition isSubmitCall (e : Effect) : bool :=
  match e with QueueSubmitJob _ _ => true | _ => false end.

Definition isDirectoryCall (e : Effect) : bool :=
  match e with
  | QueueManagerToQueueList | QueueManagerLookupQueue _
  | JobManagerLookupMoleQueueId _ | QueueSubmitJob _ _ => true
  | _ => false
  end.

Definition isExit (e : Effect) : bool :=
  match e with AppExit _ => true | _ => false end.

Definition isForceStart (e : Effect) : bool :=
  match e with ServerForceStart => true | _ => false end.

Definition isDialog (e : Effect) : bool :=
  match e with InputDialogGetItem _ _ _ _ _ => true | _ => false end.

(** The responses written, with the connection each one was written to. *)
Fixpoint sends (t : list Effect) : list (ConnId * Response) :=
  match t with
  | [] => []
  | ConnSend c r :: t' => (c, r) :: sends t'
  | _ :: t' => sends t'
  end.

(** The responses written to one connection. *)
Definition responsesOn (c : ConnId) (t : list Effect) : list Response :=
  (filter (fun cr => cr.1 = c) (sends t)).*2.

(** ** The state of the objects the slots call into *)

Record World := mkWorld {
  (** what each connection has been asked to send, oldest first *)
  outbox : gmap ConnId (list Response);
  (** the jobs handed to [Queue::submitJob], by queue name, oldest first *)
  submitted : list (string * Job);
  (** lines written with [qDebug()] and [qWarning()] *)
  debugLog : list (list LogItem);
  warningLog : list (list LogItem);
  (** modal dialogs and message boxes shown to the user *)
  dialogsShown : nat;
  messageBoxes : list (string * string);
  (** the main window *)
  windowVisible : bool;
  (** the return code passed to [QCoreApplication::exit], once called *)
  exitCode : option Z;
  (** whether [Server::forceStart] has taken over the listening socket *)
  tookOverSocket : bool
}.

Definition sentTo (w : World) (c : ConnId) : list Response :=
  default [] (outbox w !! c).

(** The effect of one call. *)
Definition perform (w : World) (e : Effect) : World :=
  match e with
  | QWarning items =>
      mkWorld (outbox w) (submitted w) (debugLog w) (warningLog w ++ [items])
              (dialogsShown w) (messageBoxes w) (windowVisible w)
              (exitCode w) (tookOverSocket w)
  | QDebug items =>
      mkWorld (outbox w) (submitted w) (debugLog w ++ [items]) (warningLog w)
              (dialogsShown w) (messageBoxes w) (windowVisible w)
              (exitCode w) (tookOverSocket w)
  | QueueManagerToQueueList | QueueManagerLookupQueue _
  | JobManagerLookupMoleQueueId _ => w
  | ConnSend c r =>
      mkWorld (<[c := sentTo w c ++ [r]]> (outbox w)) (submitted w)
              (debugLog w) (warningLog w)
              (dialogsShown w) (messageBoxes w) (windowVisible w)
              (exitCode w) (tookOverSocket w)
  | QueueSubmitJob qname req =>
      mkWorld (outbox w) (submitted w ++ [(qname, req)])
              (debugLog w) (warningLog w)
              (dialogsShown w) (messageBoxes w) (windowVisible w)
              (exitCode w) (tookOverSocket w)
  | InputDialogGetItem _ _ _ _ _ =>
      mkWorld (outbox w) (submitted w) (debugLog w) (warningLog w)
              (S (dialogsShown w)) (messageBoxes w) (windowVisible w)
              (exitCode w) (tookOverSocket w)
  | WindowHide =>
      mkWorld (outbox w) (submitted w) (debugLog w) (warningLog w)
              (dialogsShown w) (messageBoxes w) false
              (exitCode w) (tookOverSocket w)
  | AppExit code =>
      mkWorld (outbox w) (submitted w) (debugLog w) (warningLog w)
              (dialogsShown w) (messageBoxes w) (windowVisible w)
              (Some code) (tookOverSocket w)
  | ServerForceStart =>
      mkWorld (outbox w) (submitted w) (debugLog w) (warningLog w)
              (dialogsShown w) (messageBoxes w) (windowVisible w)
              (exitCode w) true
  | MessageBoxWarning title text =>
      mkWorld (outbox w) (submitted w) (debugLog w) (warningLog w)
              (dialogsShown w) (messageBoxes w ++ [(title, text)])
              (windowVisible w) (exitCode w) (tookOverSocket w)
  end.

(** Running a computation in a world: its calls are performed in order. *)
Definition run {A} (m : Cmd A) (w : World) : World :=
  fold_left perform (trace_of m) w.

(** A world in which nothing has happened yet and the window is shown. *)
Definition freshWorld : World :=
  mkWorld ∅ [] [] [] 0 [] true None false.

(** ** Auxiliary definitions used in the statements *)

(** A computation is well behaved when neither its result nor the calls
    it makes depend on what was traced before it started. *)
Definition appends {A} (m : Cmd A) : Prop :=
  forall t, m t = (fst (m []), t ++ trace_of m).

Definition submissionBanner (req : Job) : Effect :=
  QDebug [LogText ("Job submission requested:" +:+ LF); LogText (hash req)].

Definition cancellationBanner (id : IdType) : Effect :=
  QDebug [LogText "Job cancellation requested: MoleQueueId:"; LogId id].

Definition senderWarning (funcInfo : string) : Effect :=
  QWarning [LogText funcInfo;
            LogText "called with a sender which is not a ServerConnection."].

(** The single response of a slot run for a connection. *)
Definition responseTo (qm : QueueManager) (jm : JobManager) (s : Signal)
  : Response :=
  match s with
  | queueListRequestedSignal => QueueListResponse (toQueueList qm)
  | jobSubmissionRequestedSignal req =>
      match lookupQueue qm (queue req) with
      | None => FailedSubmissionResponse req InvalidQueue
                  ("Unknown queue: " +:+ queue req)
      | Some _ => SuccessfulSubmissionResponse req
      end
  | jobCancellationRequestedSignal id =>
      SuccessfulCancellationResponse (lookupMoleQueueId jm id)
  end.

(** The signals in a run that were emitted by connection [c]. *)
Definition emittedBy (c : ConnId) (ds : list Dispatch) : list Dispatch :=
  filter (fun d => qobject_cast (d_sender d) = Some c) ds.

(** The modal dialog shown on [AddressInUseError]. *)
Definition conflictDialog : Effect :=
  InputDialogGetItem (tr "Replace existing MoleQueue server?")
    (tr "A MoleQueue server appears to already be running. How would you like to handle this?")
    choices 0 false.

(** The two ways a bind conflict is resolved. *)
Inductive StartupConflictDecision :=
| KeepExistingAndExit
| ForceReplace.

(** The decision a trace carries out: leaving the application without a
    forced start, or a forced start without leaving. *)
Definition decisionTaken (t : list Effect) : option StartupConflictDecision :=
  match existsb isExit t, existsb isForceStart t with
  | true, false => Some KeepExistingAndExit
  | false, true => Some ForceReplace
  | _, _ => None
  end.

(** What a user can do with a dialog over [items] that is not editable:
    dismiss it, or accept it with one of its rows selected. *)
Definition validSelection (items : list string) (user : DialogAction) : Prop :=
  match user with
  | DialogAccept row => (row < length items)%nat
  | DialogReject => True
  end.

(** ** Further observations on a trace *)

(** The calls of [Queue::submitJob], with the name the queue was looked up
    under. *)
Fixpoint submitCalls (t : list Effect) : list (string * Job) :=
  match t with
  | [] => []
  | QueueSubmitJob qname req :: t' => (qname, req) :: submitCalls t'
  | _ :: t' => submitCalls t'
  end.

(** The jobs whose successful-submission response has been written. *)
Fixpoint acceptedJobs (t : list Effect) : list Job :=
  match t with
  | [] => []
  | ConnSend _ (SuccessfulSubmissionResponse req) :: t' => req :: acceptedJobs t'
  | _ :: t' => acceptedJobs t'
  end.

(** In a trace, at every moment, the jobs handed to queues so far are the
    jobs accepted so far, but for at most the one just accepted. *)
Definition acceptanceFirst (t : list Effect) : Prop :=
  forall p, p `prefix_of` t ->
    (submitCalls p).*2 `prefix_of` acceptedJobs p
    /\ length (acceptedJobs p) <= S (length (submitCalls p)).

(** The calls on the window, the application, the server and the dialogs. *)
Definition isApplicationCall (e : Effect) : bool :=
  match e with
  | InputDialogGetItem _ _ _ _ _ | WindowHide | AppExit _ | ServerForceStart
  | MessageBoxWarning _ _ => true
  | _ => false
  end.

(** The [submitJob] call a delivery leads to, if any: a submission signal
    from a server connection naming a queue the manager knows. *)
Definition submissionOf (d : Dispatch) : list (string * Job) :=
  match qobject_cast (d_sender d), d_signal d with
  | Some _, jobSubmissionRequestedSignal req =>
      match lookupQueue (d_queues d) (queue req) with
      | Some _ => [(queue req, req)]
      | None => []
      end
  | _, _ => []
  end.

(** The deliveries whose sender is not a server connection. *)
Definition unresolved (ds : list Dispatch) : list Dispatch :=
  filter (fun d => qobject_cast (d_sender d) = None) ds.

(** ** Signal-slot connections *)

(** The signals of a [ServerConnection] and the slots of the main window
    named in [MainWindow::newConnection]. *)
Inductive SignalName :=
| SIGNAL_queueListRequested
| SIGNAL_jobSubmissionRequested
| SIGNAL_jobCancellationRequested.

Inductive SlotName :=
| SLOT_queueListRequested
| SLOT_jobSubmissionRequested
| SLOT_jobCancellationRequested.

(** One [connect(conn, SIGNAL(...), this, SLOT(...))]. *)
Record Connection := mkConnection {
  c_sender : ConnId;
  c_signal : SignalName;
  c_slot : SlotName
}.

(** *** MainWindow::newConnection *)
(** Each [connect] adds a connection; nothing is removed and nothing is
    checked for being there already. *)
Definition newConnection (conn : ConnId) (cs : list Connection)
  : list Connection :=
  cs ++ [mkConnection conn SIGNAL_queueListRequested SLOT_queueListRequested;
         mkConnection conn SIGNAL_jobSubmissionRequested
           SLOT_jobSubmissionRequested;
         mkConnection conn SIGNAL_jobCancellationRequested
           SLOT_jobCancellationRequested].

Definition signalName (s : Signal) : SignalName :=
  match s with
  | queueListRequestedSignal => SIGNAL_queueListRequested
  | jobSubmissionRequestedSignal _ => SIGNAL_jobSubmissionRequested
  | jobCancellationRequestedSignal _ => SIGNAL_jobCancellationRequested
  end.

Definition SignalName_eqb (a b : SignalName) : bool :=
  match a, b with
  | SIGNAL_queueListRequested, SIGNAL_queueListRequested
  | SIGNAL_jobSubmissionRequested, SIGNAL_jobSubmissionRequested
  | SIGNAL_jobCancellationRequested, SIGNAL_jobCancellationRequested => true
  | _, _ => false
  end.

(** A slot called with the arguments of a signal; [sender] is what the
    slot sees as [sender()]. *)
Definition invokeSlot (slot : SlotName) (sender : QObject)
    (qm : QueueManager) (jm : JobManager) (s : Signal) : Cmd unit :=
  match slot, s with
  | SLOT_queueListRequested, queueListRequestedSignal =>
      queueListRequested sender qm
  | SLOT_jobSubmissionRequested, jobSubmissionRequestedSignal req =>
      jobSubmissionRequested sender qm req
  | SLOT_jobCancellationRequested, jobCancellationRequestedSignal id =>
      jobCancellationRequested sender jm id
  | _, _ => mret tt
  end.

(** Emission of a signal by connection [conn]: the slots connected to that
    signal of that object are called one after the other, in the order the
    connections were made, once per connection. *)
Fixpoint emitSignal (cs : list Connection) (conn : ConnId)
    (qm : QueueManager) (jm : JobManager) (s : Signal) : Cmd unit :=
  match cs with
  | [] => mret tt
  | k :: cs' =>
      (if (c_sender k =? conn)%nat && SignalName_eqb (c_signal k) (signalName s)
       then invokeSlot (c_slot k) (ServerConnectionObject conn) qm jm s
       else mret tt) ;;
      emitSignal cs' conn qm jm s
  end.

(** The connections after [newConnection] has run for each of [conns] in
    turn, starting with none. *)
Definition connectionsAfter (conns : list ConnId) : list Connection :=
  fold_left (fun cs conn => newConnection conn cs) conns [].

(** ** The main window, its actions and the tray icon *)

(** What the window slots read and write. *)
Record Window := mkWindow {
  isVisible : bool;
  isMaximized : bool;
  actionMinimizeEnabled : bool;
  actionMaximizeEnabled : bool;
  actionRestoreEnabled : bool;
  (** [m_trayIcon->isVisible()] *)
  trayIconVisible : bool;
  (** the boxes shown with [QMessageBox::information]: title and text *)
  informationBoxes : list (string * string)
}.

(** *** MainWindow::setVisible *)
(** The three flags are set from the state before
    [QMainWindow::setVisible] runs; that call changes the visibility only. *)
Definition setVisible (w : Window) (visible : bool) : Window :=
  let minimizeEnabled := visible in
  let maximizeEnabled := negb (isMaximized w) in
  let restoreEnabled := isMaximized w || negb visible in
  mkWindow visible (isMaximized w)
           minimizeEnabled maximizeEnabled restoreEnabled
           (trayIconVisible w) (informationBoxes w).

(** [QWidget::setWindowState], as far as [isMaximized] reads it. *)
Definition setMaximized (w : Window) (maximized : bool) : Window :=
  mkWindow (isVisible w) maximized
           (actionMinimizeEnabled w) (actionMaximizeEnabled w)
           (actionRestoreEnabled w)
           (trayIconVisible w) (informationBoxes w).

(** [QWidget::hide], [QWidget::showMaximized] and [QWidget::showNormal]:
    the last two set the window state and then show the widget; showing and
    hiding go through the virtual [setVisible]. *)
Definition hide (w : Window) : Window := setVisible w false.
Definition showMaximized (w : Window) : Window :=
  setVisible (setMaximized w true) true.
Definition showNormal (w : Window) : Window :=
  setVisible (setMaximized w false) true.

(** The three actions connected in [MainWindow::createActions]. *)
Inductive WindowAction :=
| actionMinimize
| actionMaximize
| actionRestore.

(** *** MainWindow::createActions *)
(** The slot run when an action is triggered. *)
Definition triggered (a : WindowAction) (w : Window) : Window :=
  match a with
  | actionMinimize => hide w
  | actionMaximize => showMaximized w
  | actionRestore => showNormal w
  end.

Definition isEnabled (a : WindowAction) (w : Window) : bool :=
  match a with
  | actionMinimize => actionMinimizeEnabled w
  | actionMaximize => actionMaximizeEnabled w
  | actionRestore => actionRestoreEnabled w
  end.

(** A [QCloseEvent]; it is accepted unless somebody ignores it. *)
Record QCloseEvent := mkCloseEvent {
  isAccepted : bool
}.

Definition systrayText : string :=
  "The program will keep running in the system tray. To terminate the program, choose <b>Quit</b> in the context menu of the system tray entry.".

(** *** MainWindow::closeEvent *)
Definition closeEvent (w : Window) (theEvent : QCloseEvent)
  : Window * QCloseEvent :=
  if trayIconVisible w then
    let w1 := mkWindow (isVisible w) (isMaximized w)
                (actionMinimizeEnabled w) (actionMaximizeEnabled w)
                (actionRestoreEnabled w) (trayIconVisible w)
                (informationBoxes w ++ [(tr "Systray", tr systrayText)]) in
    (hide w1, mkCloseEvent false)
  else
    (w, theEvent).

(** What reaches the window from the user: a triggered action, or a close
    event (accepted, as every fresh event is) handed to [closeEvent]. *)
Inductive UserStep :=
| Trigger (a : WindowAction)
| Close.

Definition userStep (w : Window) (s : UserStep) : Window :=
  match s with
  | Trigger a => triggered a w
  | Close => fst (closeEvent w (mkCloseEvent true))
  end.

(** The flags of the three actions agree with the state of the window. *)
Definition actionsConsistent (w : Window) : Prop :=
  actionMinimizeEnabled w = isVisible w
  /\ actionMaximizeEnabled w = negb (isMaximized w)
  /\ actionRestoreEnabled w = isMaximized w || negb (isVisible w).

(** * Properties *)

(** ** Strings *)

Lemma append_empty_r (s : string) : s +:+ EmptyString = s.
Proof.
  induction s as [|c s IH]; [reflexivity |].
  change (String c (s +:+ EmptyString) = String c s). now f_equal.
Qed.

Lemma arg_unknown_queue (name : string) :
  arg (tr "Unknown queue: %1") name = "Unknown queue: " +:+ name.
Proof. unfold tr. cbn [arg]. now rewrite append_empty_r. Qed.

Lemma arg_server_error (str : string) :
  arg (tr "A server error has occurred: '%1'") str
  = "A server error has occurred: '" +:+ str +:+ "'".
Proof. reflexivity. Qed.

Lemma contains_suffix (pre s : string) : contains (pre +:+ s) s.
Proof. exists pre, EmptyString. now rewrite append_empty_r. Qed.

(** ** Computations only ever append to the trace *)

Lemma appends_ret {A} (a : A) : appends (mret a : Cmd A).
Proof. intros t. unfold trace_of. cbn. now rewrite app_nil_r. Qed.

Lemma appends_call (e : Effect) : appends (call e).
Proof. intros t. reflexivity. Qed.

Lemma trace_of_bind {A B} (m : Cmd A) (k : A -> Cmd B) :
  (forall a, appends (k a)) ->
  trace_of (m ≫= k) = trace_of m ++ trace_of (k (fst (m []))).
Proof.
  intros Hk. unfold trace_of, mbind, cmd_bind.
  destruct (m []) as [a t']. cbn. now rewrite (Hk a t').
Qed.

Lemma appends_bind {A B} (m : Cmd A) (k : A -> Cmd B) :
  appends m -> (forall a, appends (k a)) -> appends (m ≫= k).
Proof.
  intros Hm Hk t. rewrite trace_of_bind by assumption.
  unfold mbind, cmd_bind. rewrite (Hm t), (Hm []).
  cbn. rewrite !(Hk _ (_ ++ _)), (Hk _ []), (Hk _ (trace_of m)).
  cbn. now rewrite app_assoc.
Qed.

Ltac cmd_appends :=
  repeat first
    [ apply appends_call | apply appends_ret
    | apply appends_bind; [| intros ?]
    | match goal with |- appends (match ?x with _ => _ end) => destruct x end
    | match goal with |- appends (if ?x then _ else _) => destruct x end ].

Lemma appends_queueListRequested sender qm :
  appends (queueListRequested sender qm).
Proof.
  unfold queueListRequested, notAServerConnection, qWarning,
    queueManager_toQueueList, sendQueueList.
  cmd_appends.
Qed.

Lemma appends_jobSubmissionRequested sender qm req :
  appends (jobSubmissionRequested sender qm req).
Proof.
  unfold jobSubmissionRequested, notAServerConnection, qWarning, qDebug,
    queueManager_lookupQueue, sendFailedSubmissionResponse,
    sendSuccessfulSubmissionResponse, queue_submitJob.
  cmd_appends.
Qed.

Lemma appends_jobCancellationRequested sender jm id :
  appends (jobCancellationRequested sender jm id).
Proof.
  unfold jobCancellationRequested, notAServerConnection, qWarning, qDebug,
    jobManager_lookupMoleQueueId, sendSuccessfulCancellationResponse.
  cmd_appends.
Qed.

Lemma appends_runSlot d : appends (runSlot d).
Proof.
  unfold runSlot. destruct (d_signal d);
    auto using appends_queueListRequested, appends_jobSubmissionRequested,
      appends_jobCancellationRequested.
Qed.

Lemma appends_eventLoop ds : appends (eventLoop ds).
Proof.
  induction ds as [|d ds IH]; cbn [eventLoop].
  - apply appends_ret.
  - apply appends_bind; [apply appends_runSlot | intros _; exact IH].
Qed.

Lemma trace_of_eventLoop_cons d ds :
  trace_of (eventLoop (d :: ds))
  = trace_of (runSlot d) ++ trace_of (eventLoop ds).
Proof.
  cbn [eventLoop]. rewrite trace_of_bind; [reflexivity |].
  intros _. apply appends_eventLoop.
Qed.

(** ** What each slot calls, in order *)

Lemma trace_queueListRequested c qm :
  trace_of (queueListRequested (ServerConnectionObject c) qm)
  = [QueueManagerToQueueList; ConnSend c (QueueListResponse (toQueueList qm))].
Proof. reflexivity. Qed.

Lemma trace_jobSubmissionRequested c qm req :
  trace_of (jobSubmissionRequested (ServerConnectionObject c) qm req)
  = submissionBanner req :: QueueManagerLookupQueue (queue req) ::
    match lookupQueue qm (queue req) with
    | None =>
        [ConnSend c (FailedSubmissionResponse req InvalidQueue
                       ("Unknown queue: " +:+ queue req))]
    | Some q =>
        [ConnSend c (SuccessfulSubmissionResponse req);
         QueueSubmitJob (queue req) req;
         QDebug [LogText "Submission ok?"; LogBool (submitJob q req)]]
    end.
Proof.
  rewrite <- arg_unknown_queue.
  unfold trace_of, jobSubmissionRequested, queueManager_lookupQueue, qDebug,
    mbind, cmd_bind, call.
  cbn -[arg]. now destruct (lookupQueue qm (queue req)) as [q|].
Qed.

Lemma trace_jobCancellationRequested c jm id :
  trace_of (jobCancellationRequested (ServerConnectionObject c) jm id)
  = [cancellationBanner id; JobManagerLookupMoleQueueId id;
     ConnSend c (SuccessfulCancellationResponse (lookupMoleQueueId jm id))].
Proof. reflexivity. Qed.

Lemma sends_runSlot_connection c qm jm s :
  sends (trace_of (runSlot (mkDispatch (ServerConnectionObject c) qm jm s)))
  = [(c, responseTo qm jm s)].
Proof.
  destruct s as [|req|id]; unfold runSlot; cbn [d_signal d_sender d_queues d_jobs].
  - now rewrite trace_queueListRequested.
  - rewrite trace_jobSubmissionRequested. cbn.
    now destruct (lookupQueue qm (queue req)).
  - now rewrite trace_jobCancellationRequested.
Qed.

Lemma sends_runSlot_no_connection d :
  qobject_cast (d_sender d) = None -> sends (trace_of (runSlot d)) = [].
Proof.
  intros H. unfold runSlot, queueListRequested, jobSubmissionRequested,
    jobCancellationRequested.
  destruct (d_signal d); rewrite H; reflexivity.
Qed.

(** ** Traces replayed on a world *)

Lemma sends_app t1 t2 : sends (t1 ++ t2) = sends t1 ++ sends t2.
Proof.
  induction t1 as [|e t1 IH]; [reflexivity |].
  destruct e; cbn; rewrite IH; reflexivity.
Qed.

Lemma responsesOn_app c t1 t2 :
  responsesOn c (t1 ++ t2) = responsesOn c t1 ++ responsesOn c t2.
Proof. unfold responsesOn. now rewrite sends_app, filter_app, fmap_app. Qed.

Lemma sentTo_perform w e c :
  sentTo (perform w e) c = sentTo w c ++ responsesOn c [e].
Proof.
  unfold responsesOn.
  destruct e; cbn; try now rewrite app_nil_r.
  unfold sentTo at 1. cbn. destruct (decide (conn = c)) as [->|Hne].
  - now rewrite lookup_insert_eq.
  - rewrite lookup_insert_ne by assumption. cbn. now rewrite app_nil_r.
Qed.

(** Each connection's outbox grows by exactly the responses the trace
    writes to it, in order. *)
Lemma sentTo_replay t w c :
  sentTo (fold_left perform t w) c = sentTo w c ++ responsesOn c t.
Proof.
  revert w. induction t as [|e t IH]; intros w; cbn [fold_left].
  - unfold responsesOn. cbn. now rewrite app_nil_r.
  - rewrite IH, sentTo_perform, <- app_assoc.
    now rewrite <- responsesOn_app.
Qed.

Lemma responsesOn_single c t r : sends t = [(c, r)] -> responsesOn c t = [r].
Proof.
  unfold responsesOn. intros ->. cbn.
  destruct (decide (c = c)); [reflexivity | contradiction].
Qed.

Lemma responsesOn_none c t : sends t = [] -> responsesOn c t = [].
Proof. unfold responsesOn. now intros ->. Qed.

(** An outbox entry changes only if the trace writes to that connection. *)
Lemma outbox_replay_other t w c :
  (forall c' r, (c', r) ∈ sends t -> c' ≠ c) ->
  outbox (fold_left perform t w) !! c = outbox w !! c.
Proof.
  revert w. induction t as [|e t IH]; intros w H; cbn [fold_left]; [reflexivity |].
  rewrite IH.
  - destruct e; try reflexivity. cbn.
    apply lookup_insert_ne. apply (H conn r). cbn. left.
  - intros c' r Hin. apply (H c' r).
    destruct e; cbn; try assumption. now right.
Qed.

(** ** Job cancellation *)

(** Whatever the job manager answers, the slot acknowledges the
    cancellation with the looked-up pointer as it is. *)
Lemma cancellation_always_acknowledged c jm id :
  sends (trace_of (jobCancellationRequested (ServerConnectionObject c) jm id))
  = [(c, SuccessfulCancellationResponse (lookupMoleQueueId jm id))].
Proof. now rewrite trace_jobCancellationRequested. Qed.

(** C1, at the input where the slot departs from it: connection 1 asks to
    cancel job 42 while the job manager holds no job at all.  The lookup
    yields NULL and the slot still writes a successful-cancellation
    response, built from that NULL record, instead of a rejection. *)
Theorem cancel_unknown_job_acknowledged_with_null_record :
  lookupMoleQueueId ∅ 42%N = None /\
  trace_of (jobCancellationRequested (ServerConnectionObject 1) ∅ 42%N)
  = [cancellationBanner 42%N; JobManagerLookupMoleQueueId 42%N;
     ConnSend 1 (SuccessfulCancellationResponse None)]
  /\ sentTo (run (jobCancellationRequested (ServerConnectionObject 1) ∅ 42%N)
               freshWorld) 1
     = [SuccessfulCancellationResponse None].
Proof. repeat split. Qed.

(** ** Job submission *)

(** C2: when the queue named by the job exists, the slot writes the
    successful-submission response for the job (which carries its
    MoleQueue id) to the requesting connection and only then calls
    [submitJob] on the queue: the send immediately precedes the one and only
    [submitJob] call, so at the moment of that call the response is already
    in the connection's outbox and nothing has been handed to a queue. *)
Theorem accepted_response_sent_before_submit
    (c : ConnId) (qm : QueueManager) (req : Job) (q : Queue) :
  lookupQueue qm (queue req) = Some q ->
  exists pre post,
    trace_of (jobSubmissionRequested (ServerConnectionObject c) qm req)
    = pre ++ ConnSend c (SuccessfulSubmissionResponse req)
          :: QueueSubmitJob (queue req) req :: post
    /\ existsb isSubmitCall pre = false
    /\ existsb isSubmitCall post = false
    /\ sends pre = [] /\ sends post = []
    /\ forall w,
         let w' := fold_left perform
                     (pre ++ [ConnSend c (SuccessfulSubmissionResponse req)]) w
         in sentTo w' c = sentTo w c ++ [SuccessfulSubmissionResponse req]
            /\ submitted w' = submitted w.
Proof.
  intros Hq.
  exists [submissionBanner req; QueueManagerLookupQueue (queue req)],
         [QDebug [LogText "Submission ok?"; LogBool (submitJob q req)]].
  rewrite trace_jobSubmissionRequested, Hq.
  repeat split.
  rewrite sentTo_replay. f_equal. now apply responsesOn_single.
Qed.

Lemma accepted_response_sent_before_submit_witness :
  let qm : QueueManager := {[ "local" := mkQueue (fun _ => true) ]} in
  let req := mkJob 7%N "local" "fingerprint" in
  exists pre post,
    trace_of (jobSubmissionRequested (ServerConnectionObject 3) qm req)
    = pre ++ ConnSend 3 (SuccessfulSubmissionResponse req)
          :: QueueSubmitJob "local" req :: post
    /\ existsb isSubmitCall pre = false
    /\ existsb isSubmitCall post = false
    /\ sends pre = [] /\ sends post = []
    /\ forall w,
         let w' := fold_left perform
                     (pre ++ [ConnSend 3 (SuccessfulSubmissionResponse req)]) w
         in sentTo w' 3 = sentTo w 3 ++ [SuccessfulSubmissionResponse req]
            /\ submitted w' = submitted w.
Proof.
  intros qm req.
  apply (accepted_response_sent_before_submit 3 qm req
           (mkQueue (fun _ => true))).
  vm_compute. reflexivity.
Defined.

(** C3: when the queue named by the job does not exist, the slot writes a
    failed-submission response with code [InvalidQueue] and a message
    containing the queue name to the requesting connection and returns.
    [submitJob] is not called; in the world the only changes are that
    response in the requester's outbox and the debug line printed before
    the lookup. *)
Theorem unknown_queue_rejected_without_submit
    (c : ConnId) (qm : QueueManager) (req : Job) :
  lookupQueue qm (queue req) = None ->
  let m := jobSubmissionRequested (ServerConnectionObject c) qm req in
  exists msg,
    contains msg (queue req)
    /\ trace_of m
       = [submissionBanner req; QueueManagerLookupQueue (queue req);
          ConnSend c (FailedSubmissionResponse req InvalidQueue msg)]
    /\ existsb isSubmitCall (trace_of m) = false
    /\ forall w,
         run m w
         = mkWorld
             (<[c := sentTo w c ++ [FailedSubmissionResponse req InvalidQueue msg]]>
                (outbox w))
             (submitted w)
             (debugLog w ++ [[LogText ("Job submission requested:" +:+ LF);
                              LogText (hash req)]])
             (warningLog w) (dialogsShown w) (messageBoxes w)
             (windowVisible w) (exitCode w) (tookOverSocket w).
Proof.
  intros Hq m. exists ("Unknown queue: " +:+ queue req).
  unfold run. subst m. rewrite trace_jobSubmissionRequested, Hq.
  repeat split. apply contains_suffix.
Qed.

Lemma unknown_queue_rejected_without_submit_witness :
  let qm : QueueManager := {[ "local" := mkQueue (fun _ => true) ]} in
  let req := mkJob 7%N "Q" "fingerprint" in
  let m := jobSubmissionRequested (ServerConnectionObject 3) qm req in
  exists msg,
    contains msg "Q"
    /\ trace_of m
       = [submissionBanner req; QueueManagerLookupQueue "Q";
          ConnSend 3 (FailedSubmissionResponse req InvalidQueue msg)]
    /\ existsb isSubmitCall (trace_of m) = false
    /\ forall w,
         run m w
         = mkWorld
             (<[3 := sentTo w 3 ++ [FailedSubmissionResponse req InvalidQueue msg]]>
                (outbox w))
             (submitted w)
             (debugLog w ++ [[LogText ("Job submission requested:" +:+ LF);
                              LogText (hash req)]])
             (warningLog w) (dialogsShown w) (messageBoxes w)
             (windowVisible w) (exitCode w) (tookOverSocket w).
Proof.
  intros qm req.
  apply (unknown_queue_rejected_without_submit 3 qm req).
  vm_compute. reflexivity.
Defined.

(** ** Routing of responses *)

(** C4: for each of the three signals emitted by connection [c], every
    response the slot writes is written to [c]; in any world, whatever the
    other connections are, their outboxes are left as they were. *)
Theorem responses_only_on_requesting_connection
    (c : ConnId) (qm : QueueManager) (jm : JobManager) (s : Signal) :
  let m := runSlot (mkDispatch (ServerConnectionObject c) qm jm s) in
  Forall (fun cr => cr.1 = c) (sends (trace_of m))
  /\ forall (w : World) (c' : ConnId),
       c' ≠ c -> outbox (run m w) !! c' = outbox w !! c'.
Proof.
  intros m. subst m. split.
  - rewrite sends_runSlot_connection. repeat constructor.
  - intros w c' Hne. unfold run. apply outbox_replay_other.
    intros c0 r. rewrite sends_runSlot_connection.
    intros Hin%list_elem_of_singleton. congruence.
Qed.

(** C5: for each of the three signals emitted by connection [c], whatever
    the queue manager and the job manager hold and whatever [submitJob]
    answers, the slot writes exactly one response, to [c]: the outbox of
    [c] grows by that one response. *)
Theorem exactly_one_response_per_request
    (c : ConnId) (qm : QueueManager) (jm : JobManager) (s : Signal) :
  let m := runSlot (mkDispatch (ServerConnectionObject c) qm jm s) in
  sends (trace_of m) = [(c, responseTo qm jm s)]
  /\ length (responsesOn c (trace_of m)) = 1
  /\ forall w : World, sentTo (run m w) c = sentTo w c ++ [responseTo qm jm s].
Proof.
  intros m. subst m.
  pose proof (sends_runSlot_connection c qm jm s) as Hs.
  pose proof (responsesOn_single _ _ _ Hs) as Hr.
  split; [exact Hs |]. split; [now rewrite Hr |].
  intros w. unfold run. now rewrite sentTo_replay, Hr.
Qed.

(** The same over a whole run of the event loop: every response written
    goes to a connection that emitted one of the signals. *)
Lemma eventLoop_responses_to_senders (ds : list Dispatch) c r :
  (c, r) ∈ sends (trace_of (eventLoop ds)) ->
  exists d, d ∈ ds /\ d_sender d = ServerConnectionObject c.
Proof.
  induction ds as [|d ds IH].
  - cbn. intros H. inversion H.
  - rewrite trace_of_eventLoop_cons, sends_app, elem_of_app.
    intros [H|H].
    + exists d. split; [left |].
      destruct d as [sender qm jm s]. cbn [d_sender].
      destruct sender as [c0| |];
        [| now rewrite sends_runSlot_no_connection in H by reflexivity;
             inversion H ..].
      rewrite sends_runSlot_connection in H.
      apply list_elem_of_singleton in H. congruence.
    + destruct (IH H) as (d' & Hin & Hs). exists d'. split; [now right | exact Hs].
Qed.

(** Over a run of the event loop, a connection receives one response for
    each signal it emitted, in the order of emission. *)
Lemma eventLoop_one_response_each (ds : list Dispatch) c :
  responsesOn c (trace_of (eventLoop ds))
  = (fun d => responseTo (d_queues d) (d_jobs d) (d_signal d)) <$> emittedBy c ds.
Proof.
  induction ds as [|d ds IH]; [reflexivity |].
  rewrite trace_of_eventLoop_cons, responsesOn_app, IH.
  unfold emittedBy. rewrite filter_cons.
  destruct d as [sender qm jm s]. cbn [d_sender d_queues d_jobs d_signal].
  destruct sender as [c0| |]; cbn [qobject_cast].
  - pose proof (sends_runSlot_connection c0 qm jm s) as Hs.
    unfold responsesOn at 1. rewrite Hs. cbn.
    destruct (decide (c0 = c)) as [->|Hne].
    + rewrite decide_True by reflexivity. reflexivity.
    + rewrite decide_False by congruence. reflexivity.
  - rewrite responsesOn_none by now apply sends_runSlot_no_connection.
    rewrite decide_False by discriminate. reflexivity.
  - rewrite responsesOn_none by now apply sends_runSlot_no_connection.
    rewrite decide_False by discriminate. reflexivity.
Qed.

(** ** Listing the queues *)

(** C8: on a queue-list request from connection [c] the slot asks the
    queue manager for its list and writes it, as it is, in a queue-list
    response to [c]; there is no other path.  The list holds exactly the
    names the manager resolves, each once, and is empty for a manager
    without queues. *)
Theorem queue_list_is_the_directory_names (c : ConnId) (qm : QueueManager) :
  trace_of (queueListRequested (ServerConnectionObject c) qm)
  = [QueueManagerToQueueList; ConnSend c (QueueListResponse (toQueueList qm))]
  /\ NoDup (toQueueList qm)
  /\ (forall name : string,
        name ∈ toQueueList qm <-> is_Some (lookupQueue qm name))
  /\ toQueueList (∅ : QueueManager) = [].
Proof.
  split; [apply trace_queueListRequested |].
  unfold toQueueList, lookupQueue. split; [apply NoDup_fst_map_to_list |].
  split.
  - intros name. rewrite list_elem_of_fmap. split.
    + intros ([n q] & -> & Hin). apply elem_of_map_to_list in Hin. now exists q.
    + intros [q Hq]. exists (name, q). split; [reflexivity |].
      now apply elem_of_map_to_list.
  - now rewrite map_to_list_empty.
Qed.

Example queue_list_local_remote :
  let qm : QueueManager :=
    <["local" := mkQueue (fun _ => true)]>
      (<["remote" := mkQueue (fun _ => false)]> ∅) in
  sends (trace_of (queueListRequested (ServerConnectionObject 5) qm))
  = [(5, QueueListResponse ["remote"; "local"])].
Proof. vm_compute. reflexivity. Qed.

(** ** Senders that are not server connections *)

(** C9: when the sender does not cast to a [ServerConnection], each of the
    three slots makes a single call, the warning, and returns: no response
    is written and neither the queue manager, a queue nor the job manager
    is called. *)
Theorem unresolved_sender_only_warns
    (sender : QObject) (qm : QueueManager) (jm : JobManager)
    (req : Job) (id : IdType) :
  qobject_cast sender = None ->
  trace_of (queueListRequested sender qm)
  = [senderWarning FUNC_INFO_queueListRequested]
  /\ trace_of (jobSubmissionRequested sender qm req)
     = [senderWarning FUNC_INFO_jobSubmissionRequested]
  /\ trace_of (jobCancellationRequested sender jm id)
     = [senderWarning FUNC_INFO_jobCancellationRequested]
  /\ forall s : Signal,
       let t := trace_of (runSlot (mkDispatch sender qm jm s)) in
       sends t = [] /\ existsb isDirectoryCall t = false
       /\ length t = 1.
Proof.
  intros H.
  unfold runSlot, queueListRequested, jobSubmissionRequested,
    jobCancellationRequested.
  cbn [d_sender d_queues d_jobs d_signal]. rewrite H.
  repeat split; destruct s; reflexivity.
Qed.

Lemma unresolved_sender_only_warns_witness :
  trace_of (queueListRequested OtherObject ∅)
  = [senderWarning FUNC_INFO_queueListRequested]
  /\ trace_of (jobSubmissionRequested OtherObject ∅ (mkJob 7%N "local" "h"))
     = [senderWarning FUNC_INFO_jobSubmissionRequested]
  /\ trace_of (jobCancellationRequested OtherObject ∅ 7%N)
     = [senderWarning FUNC_INFO_jobCancellationRequested]
  /\ forall s : Signal,
       let t := trace_of (runSlot (mkDispatch OtherObject ∅ ∅ s)) in
       sends t = [] /\ existsb isDirectoryCall t = false
       /\ length t = 1.
Proof.
  apply (unresolved_sender_only_warns OtherObject ∅ ∅
           (mkJob 7%N "local" "h") 7%N).
  reflexivity.
Defined.

(** ** Server errors *)

Lemma trace_handleServerError_conflict (str : string) (user : DialogAction) :
  trace_of (handleServerError AddressInUseError str user)
  = conflictDialog ::
    match user with
    | DialogAccept 1 | DialogReject => [WindowHide; AppExit 0]
    | DialogAccept _ => [ServerForceStart]
    end.
Proof.
  destruct user as [[|[|[|row]]]|]; reflexivity.
Qed.

Lemma trace_handleServerError_other (err : SocketError) str user :
  err ≠ AddressInUseError ->
  trace_of (handleServerError err str user)
  = [MessageBoxWarning "Server error"
       ("A server error has occurred: '" +:+ str +:+ "'")].
Proof.
  intros H%Z.eqb_neq. unfold handleServerError. rewrite H. reflexivity.
Qed.

(** C6: on [AddressInUseError] the handler shows the dialog and then does
    exactly one of two things, whatever the user does with the dialog:
    it hides the window and leaves the application with code 0, without a
    forced start; or it forces the server to start, without leaving. *)
Theorem address_in_use_resolved_one_of_two_ways
    (str : string) (user : DialogAction) :
  let m := handleServerError AddressInUseError str user in
  (decisionTaken (trace_of m) = Some KeepExistingAndExit
   /\ trace_of m = [conflictDialog; WindowHide; AppExit 0]
   /\ forall w : World,
        exitCode (run m w) = Some 0%Z
        /\ windowVisible (run m w) = false
        /\ tookOverSocket (run m w) = tookOverSocket w)
  \/
  (decisionTaken (trace_of m) = Some ForceReplace
   /\ trace_of m = [conflictDialog; ServerForceStart]
   /\ forall w : World,
        tookOverSocket (run m w) = true
        /\ exitCode (run m w) = exitCode w
        /\ windowVisible (run m w) = windowVisible w).
Proof.
  intros m. subst m. unfold run.
  rewrite trace_handleServerError_conflict.
  destruct user as [[|[|row]]|]; [right | left | right | left];
    repeat split.
Qed.

(** C7: on any error other than [AddressInUseError] the handler shows one
    warning box with the error text and does nothing else: no dialog, no
    exit, no forced start; the world is unchanged but for that box. *)
Theorem other_errors_only_notify
    (err : SocketError) (str : string) (user : DialogAction) :
  err ≠ AddressInUseError ->
  let m := handleServerError err str user in
  trace_of m
  = [MessageBoxWarning "Server error"
       ("A server error has occurred: '" +:+ str +:+ "'")]
  /\ decisionTaken (trace_of m) = None
  /\ existsb isDialog (trace_of m) = false
  /\ forall w : World,
       run m w
       = mkWorld (outbox w) (submitted w) (debugLog w) (warningLog w)
           (dialogsShown w)
           (messageBoxes w
              ++ [("Server error",
                   "A server error has occurred: '" +:+ str +:+ "'")])
           (windowVisible w) (exitCode w) (tookOverSocket w).
Proof.
  intros H m. subst m. unfold run.
  rewrite (trace_handleServerError_other err str user H).
  repeat split.
Qed.

Lemma other_errors_only_notify_witness :
  let m := handleServerError 3%Z "boom" DialogReject in
  trace_of m
  = [MessageBoxWarning "Server error" "A server error has occurred: 'boom'"]
  /\ decisionTaken (trace_of m) = None
  /\ existsb isDialog (trace_of m) = false
  /\ forall w : World,
       run m w
       = mkWorld (outbox w) (submitted w) (debugLog w) (warningLog w)
           (dialogsShown w)
           (messageBoxes w
              ++ [("Server error", "A server error has occurred: 'boom'")])
           (windowVisible w) (exitCode w) (tookOverSocket w).
Proof.
  apply (other_errors_only_notify 3%Z "boom" DialogReject).
  unfold AddressInUseError. lia.
Defined.

(** C10: in the dialog shown on [AddressInUseError], dismissing the dialog
    makes the handler hide the window and leave the application; the
    server is forced to start only when the dialog is accepted with its
    first row selected. *)
Theorem force_start_only_on_first_choice
    (str : string) (user : DialogAction) :
  validSelection choices user ->
  let t := trace_of (handleServerError AddressInUseError str user) in
  match user with
  | DialogAccept 0 => t = [conflictDialog; ServerForceStart]
  | _ => t = [conflictDialog; WindowHide; AppExit 0]
  end
  /\ (existsb isForceStart t = true <-> user = DialogAccept 0)
  /\ (decisionTaken t = Some ForceReplace <-> user = DialogAccept 0).
Proof.
  intros Hv t. subst t. rewrite trace_handleServerError_conflict.
  destruct user as [[|[|row]]|]; cbn in Hv; try lia;
    (split; [reflexivity |]); split; split; (discriminate || reflexivity).
Qed.

Lemma force_start_only_on_first_choice_witness :
  let user := DialogAccept 0 in
  let t := trace_of (handleServerError AddressInUseError "in use" user) in
  t = [conflictDialog; ServerForceStart]
  /\ (existsb isForceStart t = true <-> user = DialogAccept 0)
  /\ (decisionTaken t = Some ForceReplace <-> user = DialogAccept 0).
Proof.
  apply (force_start_only_on_first_choice "in use" (DialogAccept 0)).
  cbn. lia.
Defined.

(** ** Whole runs of the event loop *)

Lemma submitCalls_app t1 t2 :
  submitCalls (t1 ++ t2) = submitCalls t1 ++ submitCalls t2.
Proof.
  induction t1 as [|e t1 IH]; [reflexivity |].
  destruct e; cbn; rewrite IH; reflexivity.
Qed.

Lemma acceptedJobs_app t1 t2 :
  acceptedJobs (t1 ++ t2) = acceptedJobs t1 ++ acceptedJobs t2.
Proof.
  induction t1 as [|e t1 IH]; [reflexivity |].
  destruct e as [| | | | |c r| | | | | |]; cbn; try exact IH.
  destruct r; cbn; rewrite IH; reflexivity.
Qed.

Lemma submitted_replay t w :
  submitted (fold_left perform t w) = submitted w ++ submitCalls t.
Proof.
  revert w. induction t as [|e t IH]; intros w; cbn [fold_left].
  - cbn. now rewrite app_nil_r.
  - rewrite IH. destruct e; cbn; try reflexivity.
    now rewrite <- app_assoc.
Qed.

Lemma trace_runSlot_unresolved d :
  qobject_cast (d_sender d) = None ->
  exists funcInfo, trace_of (runSlot d) = [senderWarning funcInfo].
Proof.
  intros H. unfold runSlot, queueListRequested, jobSubmissionRequested,
    jobCancellationRequested.
  destruct (d_signal d); rewrite H; eexists; reflexivity.
Qed.

Lemma submitCalls_runSlot d :
  submitCalls (trace_of (runSlot d)) = submissionOf d.
Proof.
  destruct d as [sender qm jm s]. unfold submissionOf.
  cbn [d_sender d_queues d_signal].
  destruct (qobject_cast sender) as [c|] eqn:Hc.
  - destruct sender as [c0| |]; try discriminate.
    unfold runSlot. cbn [d_sender d_queues d_jobs d_signal].
    destruct s as [|req|id].
    + now rewrite trace_queueListRequested.
    + rewrite trace_jobSubmissionRequested. cbn.
      now destruct (lookupQueue qm (queue req)).
    + now rewrite trace_jobCancellationRequested.
  - destruct (trace_runSlot_unresolved (mkDispatch sender qm jm s) Hc)
      as [f ->].
    now destruct s.
Qed.

(** X1: over a run of the event loop, a connection is written one
    response for each signal it emitted, in the order of emission, and
    nothing for the signals of others; its outbox grows by exactly
    those responses. *)
Theorem eventLoop_outbox_per_connection
    (ds : list Dispatch) (c : ConnId) (w : World) :
  responsesOn c (trace_of (eventLoop ds))
  = (fun d => responseTo (d_queues d) (d_jobs d) (d_signal d))
      <$> emittedBy c ds
  /\ sentTo (run (eventLoop ds) w) c
     = sentTo w c
       ++ ((fun d => responseTo (d_queues d) (d_jobs d) (d_signal d))
             <$> emittedBy c ds).
Proof.
  split; [apply eventLoop_one_response_each |].
  unfold run. now rewrite sentTo_replay, eventLoop_one_response_each.
Qed.

(** X2: over a run of the event loop, [submitJob] is called exactly for
    the submission signals that come from a server connection and name a
    queue the manager knows at that moment, once each and in order. *)
Theorem eventLoop_submissions (ds : list Dispatch) (w : World) :
  submitCalls (trace_of (eventLoop ds)) = flat_map submissionOf ds
  /\ submitted (run (eventLoop ds) w)
     = submitted w ++ flat_map submissionOf ds.
Proof.
  assert (H : submitCalls (trace_of (eventLoop ds)) = flat_map submissionOf ds).
  { induction ds as [|d ds IH]; [reflexivity |].
    rewrite trace_of_eventLoop_cons, submitCalls_app, submitCalls_runSlot, IH.
    reflexivity. }
  split; [exact H |]. unfold run. now rewrite submitted_replay, H.
Qed.

(** *** Acceptance always comes first *)

Lemma acceptanceFirst_app t1 t2 :
  acceptanceFirst t1 -> (submitCalls t1).*2 = acceptedJobs t1 ->
  acceptanceFirst t2 -> acceptanceFirst (t1 ++ t2).
Proof.
  intros H1 Hb H2 p [k Hp].
  symmetry in Hp. apply app_eq_inv in Hp as [(k' & -> & ->)|(k' & -> & ->)].
  - destruct (H2 k') as [Hpre Hlen]; [now exists k |].
    rewrite submitCalls_app, acceptedJobs_app, fmap_app, Hb, !length_app.
    split; [now apply prefix_app |].
    rewrite <- Hb, length_fmap. lia.
  - apply H1. now exists k'.
Qed.

Ltac prefix_cases H :=
  repeat match type of H with
    | ?p `prefix_of` [] => apply prefix_nil_inv in H; subst p
    | ?p `prefix_of` (_ :: _) =>
        destruct p as [|? p];
        [| let E := fresh in
           pose proof (prefix_cons_inv_1 _ _ _ _ H) as E; subst;
           apply prefix_cons_inv_2 in H]
    end.

Lemma acceptanceFirst_runSlot d :
  acceptanceFirst (trace_of (runSlot d))
  /\ (submitCalls (trace_of (runSlot d))).*2 = acceptedJobs (trace_of (runSlot d)).
Proof.
  destruct d as [sender qm jm s].
  destruct (qobject_cast sender) as [c|] eqn:Hc.
  - destruct sender as [c0| |]; try discriminate.
    unfold runSlot. cbn [d_sender d_queues d_jobs d_signal].
    destruct s as [|req|id].
    + rewrite trace_queueListRequested. split; [| reflexivity].
      intros p Hp. prefix_cases Hp; cbn; split; (apply prefix_nil || lia).
    + rewrite trace_jobSubmissionRequested.
      destruct (lookupQueue qm (queue req)) as [q|]; (split; [| reflexivity]);
        intros p Hp; prefix_cases Hp; cbn; split;
        first [ lia | apply prefix_nil | reflexivity ].
    + rewrite trace_jobCancellationRequested. split; [| reflexivity].
      intros p Hp. prefix_cases Hp; cbn; split; (apply prefix_nil || lia).
  - destruct (trace_runSlot_unresolved (mkDispatch sender qm jm s) Hc)
      as [f ->].
    split; [| reflexivity].
    intros p Hp. prefix_cases Hp; cbn; split; (apply prefix_nil || lia).
Qed.

(** X3: over a run of the event loop, whatever is delivered, a queue is
    never handed a job before the successful-submission response for that
    job has been written: at every moment the jobs handed to queues are,
    in order, the jobs accepted so far, but for at most the one accepted
    last; and at the end of the run the two lists are the same. *)
Theorem eventLoop_acceptance_first (ds : list Dispatch) :
  acceptanceFirst (trace_of (eventLoop ds))
  /\ (submitCalls (trace_of (eventLoop ds))).*2
     = acceptedJobs (trace_of (eventLoop ds)).
Proof.
  induction ds as [|d ds [IH1 IH2]].
  - split; [| reflexivity]. intros p Hp. cbn in Hp.
    apply prefix_nil_inv in Hp as ->. cbn. split; [apply prefix_nil | lia].
  - rewrite trace_of_eventLoop_cons.
    destruct (acceptanceFirst_runSlot d) as [Hd1 Hd2]. split.
    + now apply acceptanceFirst_app.
    + now rewrite submitCalls_app, acceptedJobs_app, fmap_app, Hd2, IH2.
Qed.

(** *** What the request slots leave alone *)

Lemma existsb_app_false {A} (f : A -> bool) l1 l2 :
  existsb f l1 = false -> existsb f l2 = false -> existsb f (l1 ++ l2) = false.
Proof. intros H1 H2. now rewrite existsb_app, H1, H2. Qed.

Lemma runSlot_no_application_call d :
  existsb isApplicationCall (trace_of (runSlot d)) = false.
Proof.
  destruct d as [sender qm jm s].
  destruct (qobject_cast sender) as [c|] eqn:Hc.
  - destruct sender as [c0| |]; try discriminate.
    unfold runSlot. cbn [d_sender d_queues d_jobs d_signal].
    destruct s as [|req|id].
    + now rewrite trace_queueListRequested.
    + rewrite trace_jobSubmissionRequested.
      now destruct (lookupQueue qm (queue req)).
    + now rewrite trace_jobCancellationRequested.
  - now destruct (trace_runSlot_unresolved (mkDispatch sender qm jm s) Hc)
      as [f ->].
Qed.

Lemma eventLoop_no_application_call ds :
  existsb isApplicationCall (trace_of (eventLoop ds)) = false.
Proof.
  induction ds as [|d ds IH]; [reflexivity |].
  rewrite trace_of_eventLoop_cons.
  apply existsb_app_false; [apply runSlot_no_application_call | exact IH].
Qed.

Lemma replay_without_application_calls t w :
  existsb isApplicationCall t = false ->
  let w' := fold_left perform t w in
  exitCode w' = exitCode w
  /\ windowVisible w' = windowVisible w
  /\ tookOverSocket w' = tookOverSocket w
  /\ dialogsShown w' = dialogsShown w
  /\ messageBoxes w' = messageBoxes w.
Proof.
  revert w. induction t as [|e t IH]; intros w H; cbn [fold_left].
  - repeat split.
  - cbn in H. apply orb_false_iff in H as [He Ht].
    specialize (IH (perform w e) Ht). cbn in IH.
    destruct IH as (-> & -> & -> & -> & ->).
    destruct e; cbn in He; try discriminate; repeat split.
Qed.

(** X4: answering requests never reaches the application: over a run of
    the event loop, whatever is delivered, no dialog or message box is
    shown, the window is not hidden, the application is not asked to exit
    and the server is not forced to start. *)
Theorem eventLoop_leaves_application_alone (ds : list Dispatch) (w : World) :
  existsb isApplicationCall (trace_of (eventLoop ds)) = false
  /\ exitCode (run (eventLoop ds) w) = exitCode w
  /\ windowVisible (run (eventLoop ds) w) = windowVisible w
  /\ tookOverSocket (run (eventLoop ds) w) = tookOverSocket w
  /\ dialogsShown (run (eventLoop ds) w) = dialogsShown w
  /\ messageBoxes (run (eventLoop ds) w) = messageBoxes w.
Proof.
  split; [apply eventLoop_no_application_call |].
  apply replay_without_application_calls, eventLoop_no_application_call.
Qed.

Lemma outbox_replay_no_sends t w :
  sends t = [] -> outbox (fold_left perform t w) = outbox w.
Proof.
  intros H. apply map_eq. intros c. apply outbox_replay_other.
  intros c' r. rewrite H. intros Hin. inversion Hin.
Qed.

(** X5: the server error handler never answers a request: for every
    error, error text and user action it writes to no connection, calls
    neither the queue manager, a queue nor the job manager, and leaves all
    outboxes and the submitted jobs as they were. *)
Theorem handleServerError_leaves_requests_alone
    (err : SocketError) (str : string) (user : DialogAction) (w : World) :
  let m := handleServerError err str user in
  sends (trace_of m) = []
  /\ existsb isDirectoryCall (trace_of m) = false
  /\ outbox (run m w) = outbox w
  /\ submitted (run m w) = submitted w.
Proof.
  intros m. subst m.
  assert (H : sends (trace_of (handleServerError err str user)) = []
              /\ existsb isDirectoryCall
                   (trace_of (handleServerError err str user)) = false
              /\ submitCalls (trace_of (handleServerError err str user)) = []).
  { destruct (decide (err = AddressInUseError)) as [->|Hne].
    - rewrite trace_handleServerError_conflict.
      destruct user as [[|[|row]]|]; repeat split.
    - rewrite (trace_handleServerError_other err str user Hne). repeat split. }
  destruct H as (Hs & Hd & Hc). unfold run.
  split; [exact Hs |]. split; [exact Hd |]. split.
  - now apply outbox_replay_no_sends.
  - now rewrite submitted_replay, Hc, app_nil_r.
Qed.

Lemma warningLog_runSlot d w :
  length (warningLog (fold_left perform (trace_of (runSlot d)) w))
  = length (warningLog w)
    + (if qobject_cast (d_sender d) is None then 1 else 0).
Proof.
  destruct d as [sender qm jm s]. cbn [d_sender].
  destruct (qobject_cast sender) as [c|] eqn:Hc.
  - destruct sender as [c0| |]; try discriminate.
    unfold runSlot. cbn [d_sender d_queues d_jobs d_signal].
    destruct s as [|req|id].
    + rewrite trace_queueListRequested. cbn. lia.
    + rewrite trace_jobSubmissionRequested.
      destruct (lookupQueue qm (queue req)); cbn; lia.
    + rewrite trace_jobCancellationRequested. cbn. lia.
  - destruct (trace_runSlot_unresolved (mkDispatch sender qm jm s) Hc)
      as [f ->].
    cbn. rewrite length_app. cbn. lia.
Qed.

(** X6: over a run of the event loop a warning is logged once for each
    delivery whose sender is not a server connection, and for no other. *)
Theorem eventLoop_warns_per_unresolved_sender
    (ds : list Dispatch) (w : World) :
  length (warningLog (run (eventLoop ds) w))
  = length (warningLog w) + length (unresolved ds).
Proof.
  unfold run. revert w. induction ds as [|d ds IH]; intros w.
  - cbn. lia.
  - rewrite trace_of_eventLoop_cons, fold_left_app, IH, warningLog_runSlot.
    unfold unresolved. rewrite filter_cons.
    destruct (qobject_cast (d_sender d)) as [c|].
    + rewrite decide_False by discriminate. lia.
    + rewrite decide_True by reflexivity. cbn. lia.
Qed.

(** ** Connections made by [newConnection] *)

Lemma appends_invokeSlot slot sender qm jm s :
  appends (invokeSlot slot sender qm jm s).
Proof.
  destruct slot, s; cbn [invokeSlot];
    auto using appends_ret, appends_queueListRequested,
      appends_jobSubmissionRequested, appends_jobCancellationRequested.
Qed.

Lemma appends_emitSignal cs conn qm jm s :
  appends (emitSignal cs conn qm jm s).
Proof.
  induction cs as [|k cs IH]; cbn [emitSignal].
  - apply appends_ret.
  - apply appends_bind; [| intros _; exact IH].
    destruct (_ && _); [apply appends_invokeSlot | apply appends_ret].
Qed.

Lemma trace_emitSignal_cons k cs conn qm jm s :
  trace_of (emitSignal (k :: cs) conn qm jm s)
  = (if (c_sender k =? conn)%nat && SignalName_eqb (c_signal k) (signalName s)
     then trace_of (invokeSlot (c_slot k) (ServerConnectionObject conn) qm jm s)
     else [])
    ++ trace_of (emitSignal cs conn qm jm s).
Proof.
  cbn [emitSignal]. rewrite trace_of_bind by (intros _; apply appends_emitSignal).
  now destruct (_ && _).
Qed.

Lemma trace_emitSignal_app cs1 cs2 conn qm jm s :
  trace_of (emitSignal (cs1 ++ cs2) conn qm jm s)
  = trace_of (emitSignal cs1 conn qm jm s)
    ++ trace_of (emitSignal cs2 conn qm jm s).
Proof.
  induction cs1 as [|k cs1 IH]; [reflexivity |].
  rewrite <- app_comm_cons, !trace_emitSignal_cons, IH. apply app_assoc.
Qed.

(** The three connections of one [newConnection] call deliver a signal of
    that connection to the slot of the same name, and nothing of others. *)
Lemma trace_emitSignal_newConnection c conn qm jm s :
  trace_of (emitSignal (newConnection c []) conn qm jm s)
  = if decide (c = conn)
    then trace_of (runSlot (mkDispatch (ServerConnectionObject conn) qm jm s))
    else [].
Proof.
  unfold newConnection. rewrite app_nil_l, !trace_emitSignal_cons.
  cbn [c_sender c_signal c_slot].
  destruct (decide (c = conn)) as [->|Hne].
  - rewrite Nat.eqb_refl. unfold runSlot.
    destruct s; cbn; now rewrite ?app_nil_r.
  - apply Nat.eqb_neq in Hne. rewrite Hne. reflexivity.
Qed.

Lemma connectionsAfter_snoc conns c :
  connectionsAfter (conns ++ [c])
  = connectionsAfter conns ++ newConnection c [].
Proof. unfold connectionsAfter. rewrite fold_left_app. reflexivity. Qed.

(** X7: a signal emitted by a connection runs its slot once for every
    time [newConnection] was called for that connection, whatever other
    connections were registered: not at all if it never was, once (as one
    delivery of the event loop) if it was once, and again for every
    repeated call, each run writing its own response. *)
Theorem emitSignal_once_per_newConnection
    (conns : list ConnId) (conn : ConnId)
    (qm : QueueManager) (jm : JobManager) (s : Signal) :
  let n := count_occ Nat.eq_dec conns conn in
  let t := trace_of (emitSignal (connectionsAfter conns) conn qm jm s) in
  t = concat (replicate n
                (trace_of (runSlot (mkDispatch (ServerConnectionObject conn)
                                      qm jm s))))
  /\ sends t = replicate n (conn, responseTo qm jm s).
Proof.
  cbn zeta.
  assert (H : trace_of (emitSignal (connectionsAfter conns) conn qm jm s)
              = concat (replicate (count_occ Nat.eq_dec conns conn)
                  (trace_of (runSlot (mkDispatch (ServerConnectionObject conn)
                                        qm jm s))))).
  { induction conns as [|c conns IH] using rev_ind; [reflexivity |].
    rewrite connectionsAfter_snoc, trace_emitSignal_app, IH,
      trace_emitSignal_newConnection, count_occ_app.
    cbn [count_occ]. destruct (Nat.eq_dec c conn) as [->|Hne].
    - rewrite decide_True by reflexivity.
      rewrite Nat.add_1_r, replicate_S_end, concat_app. cbn.
      now rewrite app_nil_r.
    - rewrite decide_False by assumption.
      now rewrite Nat.add_0_r, app_nil_r. }
  split; [exact H |]. rewrite H. clear H.
  induction (count_occ Nat.eq_dec conns conn) as [|n IHn]; [reflexivity |].
  cbn [replicate concat]. rewrite sends_app, sends_runSlot_connection, IHn.
  reflexivity.
Qed.

(** ** The window actions *)

Lemma setVisible_consistent w visible : actionsConsistent (setVisible w visible).
Proof. repeat split. Qed.

Lemma triggered_consistent a w : actionsConsistent (triggered a w).
Proof. destruct a; apply setVisible_consistent. Qed.

Lemma userStep_consistent w s :
  actionsConsistent w -> actionsConsistent (userStep w s).
Proof.
  intros H. destruct s as [a|]; cbn [userStep].
  - apply triggered_consistent.
  - unfold closeEvent. destruct (trayIconVisible w); cbn [fst].
    + apply setVisible_consistent.
    + exact H.
Qed.

Lemma userStep_keeps_tray_icon w s :
  trayIconVisible (userStep w s) = trayIconVisible w.
Proof.
  destruct s as [[| |]|]; try reflexivity.
  cbn [userStep]. unfold closeEvent.
  destruct (trayIconVisible w) eqn:E; cbn; now rewrite ?E.
Qed.

(** X8: once [setVisible] has run, the flags of the three actions agree
    with the window and stay so through any sequence of triggered actions
    and close events: Minimize is enabled exactly when the window is
    visible, Maximize exactly when it is not maximized, Restore exactly
    when it is maximized or hidden.  Hence Minimize or Restore is always
    offered.  None of this touches the tray icon. *)
Theorem actions_consistent_after_user_steps
    (w : Window) (visible : bool) (steps : list UserStep) :
  let w' := fold_left userStep steps (setVisible w visible) in
  actionsConsistent w'
  /\ actionMinimizeEnabled w' || actionRestoreEnabled w' = true
  /\ trayIconVisible w' = trayIconVisible w.
Proof.
  cbn zeta.
  assert (H : actionsConsistent (fold_left userStep steps (setVisible w visible))
              /\ trayIconVisible (fold_left userStep steps (setVisible w visible))
                 = trayIconVisible w).
  { change (trayIconVisible w) with (trayIconVisible (setVisible w visible)).
    generalize (setVisible_consistent w visible).
    generalize (setVisible w visible).
    induction steps as [|s steps IH]; intros w0 H0; cbn [fold_left].
    - split; [exact H0 | reflexivity].
    - destruct (IH (userStep w0 s) (userStep_consistent w0 s H0)) as [H1 H2].
      split; [exact H1 |]. now rewrite H2, userStep_keeps_tray_icon. }
  destruct H as [(Hmin & Hmax & Hres) Htray].
  split; [now repeat split |]. split; [| exact Htray].
  rewrite Hmin, Hres.
  destruct (isVisible _), (isMaximized _); reflexivity.
Qed.

(** X9: a window action is disabled right after it has been triggered,
    whatever the state before, and another one is then enabled: after
    Minimize the window is hidden and Restore is enabled; after Maximize it
    is visible and maximized and Minimize and Restore are enabled; after
    Restore it is visible and not maximized and Minimize and Maximize are
    enabled. *)
Theorem triggered_action_is_disabled (a : WindowAction) (w : Window) :
  let w' := triggered a w in
  isEnabled a w' = false
  /\ match a with
     | actionMinimize =>
         isVisible w' = false /\ isMaximized w' = isMaximized w
         /\ isEnabled actionRestore w' = true
     | actionMaximize =>
         isVisible w' = true /\ isMaximized w' = true
         /\ isEnabled actionMinimize w' = true
         /\ isEnabled actionRestore w' = true
     | actionRestore =>
         isVisible w' = true /\ isMaximized w' = false
         /\ isEnabled actionMinimize w' = true
         /\ isEnabled actionMaximize w' = true
     end.
Proof.
  destruct a; cbn; repeat split.
  destruct (isMaximized w); reflexivity.
Qed.

(** X10: when the tray icon is visible, a close event is ignored: the
    information box is shown once, the window is hidden with its maximized
    state kept, Minimize is disabled and Restore enabled; triggering
    Restore then shows the window again, never maximized. *)
Theorem closeEvent_hides_to_tray (w : Window) (theEvent : QCloseEvent) :
  trayIconVisible w = true ->
  let w' := fst (closeEvent w theEvent) in
  isAccepted (snd (closeEvent w theEvent)) = false
  /\ informationBoxes w' = informationBoxes w ++ [("Systray", systrayText)]
  /\ isVisible w' = false
  /\ isMaximized w' = isMaximized w
  /\ isEnabled actionMinimize w' = false
  /\ isEnabled actionRestore w' = true
  /\ isVisible (triggered actionRestore w') = true
  /\ isMaximized (triggered actionRestore w') = false.
Proof.
  intros H. unfold closeEvent. rewrite H. cbn. repeat split.
  apply orb_true_r.
Qed.

Lemma closeEvent_hides_to_tray_witness :
  let w := mkWindow true true true false true true [] in
  let w' := fst (closeEvent w (mkCloseEvent true)) in
  isAccepted (snd (closeEvent w (mkCloseEvent true))) = false
  /\ informationBoxes w' = informationBoxes w ++ [("Systray", systrayText)]
  /\ isVisible w' = false
  /\ isMaximized w' = isMaximized w
  /\ isEnabled actionMinimize w' = false
  /\ isEnabled actionRestore w' = true
  /\ isVisible (triggered actionRestore w') = true
  /\ isMaximized (triggered actionRestore w') = false.
Proof.
  apply (closeEvent_hides_to_tray
           (mkWindow true true true false true true []) (mkCloseEvent true)).
  reflexivity.
Defined.

(** Without a visible tray icon [closeEvent] does nothing at all, and the
    event comes back as it was passed in. *)
Lemma closeEvent_without_tray_icon (w : Window) (theEvent : QCloseEvent) :
  trayIconVisible w = false ->
  closeEvent w theEvent = (w, theEvent).
Proof. intros H. unfold closeEvent. now rewrite H. Qed.

(** ** What the user is shown on a server error *)

(** X11: every server error is put before the user exactly once: the
    item dialog for [AddressInUseError], a warning box whose text contains
    the error string for any other error, and never both. *)
Theorem handleServerError_shown_once
    (err : SocketError) (str : string) (user : DialogAction) (w : World) :
  let w' := run (handleServerError err str user) w in
  (err = AddressInUseError
   /\ dialogsShown w' = S (dialogsShown w)
   /\ messageBoxes w' = messageBoxes w)
  \/
  (err ≠ AddressInUseError
   /\ dialogsShown w' = dialogsShown w
   /\ exists text,
        messageBoxes w' = messageBoxes w ++ [("Server error", text)]
        /\ contains text str).
Proof.
  cbn zeta. unfold run.
  destruct (decide (err = AddressInUseError)) as [->|Hne]; [left | right].
  - rewrite trace_handleServerError_conflict.
    destruct user as [[|[|row]]|]; repeat split.
  - rewrite (trace_handleServerError_other err str user Hne).
    split; [exact Hne |]. split; [reflexivity |].
    exists ("A server error has occurred: '" +:+ str +:+ "'").
    split; [reflexivity |].
    now exists "A server error has occurred: '", "'".
Qed.

(** ** Repeated calls *)

(** X12: [setVisible] reads nothing that it writes, so of two calls in a
    row only the last one counts, and triggering a window action twice is
    the same as triggering it once. *)
Theorem setVisible_last_call_wins (w : Window) (v1 v2 : bool) (a : WindowAction) :
  setVisible (setVisible w v1) v2 = setVisible w v2
  /\ triggered a (triggered a w) = triggered a w.
Proof. split; [reflexivity | destruct a; reflexivity]. Qed.
